(** * app/repositories/map_requests.py

    A shallow embedding of the [map_requests] repository of bancho.py and
    of the database handle it talks to, followed by the properties of the
    repository's operations. *)

From stdpp Require Import gmap strings list fin_maps.

Local Open Scope string_scope.
Local Open Scope Z_scope.
Local Open Scope list_scope.

(** ** Python values *)

(** The values bound to the named parameters of a statement and found in
    the mapping of a fetched row.  [map_ids] is a list of map ids. *)
Inductive value :=
| VNone
| VInt (z : Z)
| VBool (b : bool)
| VStr (s : string)
| VList (l : list Z).

#[global] Instance value_eq_dec : EqDecision value.
Proof. solve_decision. Defined.

(** A Python [dict] with string keys: the parameters of a statement, the
    [_mapping] of a fetched row, and, at run time, a [MapRequest]. *)
Abbreviation dict := (gmap string value).

(** The exceptions the repository can let escape. [ValueError] is the
    module's invalid-argument condition; [StoreError] stands for whatever
    the database handle raises. *)
Inductive exn :=
| ValueError (msg : string)
| AssertionError
| AttributeError
| KeyError (key : string)
| StoreError.

Inductive result (A : Type) :=
| Return (a : A)
| Raise (e : exn).
Arguments Return {A} a.
Arguments Raise {A} e.

(** ** The table *)

(** One row of the table [map_requests]; every column is NOT NULL.
    [active] is a tinyint(1) that the module only ever writes from a
    Python [bool]. *)
Record MapRequest := {
  id : Z;
  map_id : Z;
  player_id : Z;
  datetime : string;
  active : bool;
}.

#[global] Instance MapRequest_eq_dec : EqDecision MapRequest.
Proof. solve_decision. Defined.

Inductive column := c_id | c_map_id | c_player_id | c_datetime | c_active.

#[global] Instance column_eq_dec : EqDecision column.
Proof. solve_decision. Defined.

Definition column_name (c : column) : string :=
  match c with
  | c_id => "id"
  | c_map_id => "map_id"
  | c_player_id => "player_id"
  | c_datetime => "datetime"
  | c_active => "active"
  end.

(** What the driver hands back for a column of a row. *)
Definition column_value (c : column) (r : MapRequest) : value :=
  match c with
  | c_id => VInt (id r)
  | c_map_id => VInt (map_id r)
  | c_player_id => VInt (player_id r)
  | c_datetime => VStr (datetime r)
  | c_active => VInt (Z.b2z (active r))
  end.

(** ** Statements *)

(** The statements the module writes as SQL text, as syntax trees over the
    one table [map_requests]. [Param n] is the named placeholder [:n]. *)
Inductive expr :=
| Param (name : string)
| Col (c : column)
| Coalesce (e1 e2 : expr)
| Now.

Inductive cond :=
| Eq (c : column) (e : expr)
| IsIn (c : column) (e : expr).

Inductive statement :=
| Insert (values : list (column * expr))
| Select (columns : list column) (where_ : list cond)
| SelectCount (alias : string) (where_ : list cond)
| Update (set_ : list (column * expr)) (where_ : list cond)
| Delete (where_ : list cond).

Fixpoint expr_placeholders (e : expr) : list string :=
  match e with
  | Param n => [n]
  | Col _ => []
  | Coalesce e1 e2 => expr_placeholders e1 ++ expr_placeholders e2
  | Now => []
  end.

Definition cond_placeholders (c : cond) : list string :=
  match c with
  | Eq _ e => expr_placeholders e
  | IsIn _ e => expr_placeholders e
  end.

Definition where_placeholders (w : list cond) : list string :=
  concat (map cond_placeholders w).

Definition assignment_placeholders (a : list (column * expr)) : list string :=
  concat (map (λ ce, expr_placeholders ce.2) a).

(** Every named placeholder a statement refers to. *)
Definition placeholders (q : statement) : list string :=
  match q with
  | Insert vs => assignment_placeholders vs
  | Select _ w => where_placeholders w
  | SelectCount _ w => where_placeholders w
  | Update s w => assignment_placeholders s ++ where_placeholders w
  | Delete w => where_placeholders w
  end.

(** ** The database *)

(** The table, the next auto-increment id, the store's clock, and the
    statements issued so far with their parameters (oldest first). *)
Record Database := {
  map_requests : list MapRequest;
  auto_increment : Z;
  clock : string;
  issued : list (statement * dict);
}.

(** [io A] is a computation against the database that returns an [A] or
    raises; the database it leaves behind is kept in both cases. *)
Definition io (A : Type) : Type := Database → result A * Database.

#[global] Instance io_ret : MRet io := λ A a db, (Return a, db).
#[global] Instance io_bind : MBind io := λ A B f m db,
  match m db with
  | (Return a, db') => f a db'
  | (Raise e, db') => (Raise e, db')
  end.

Definition raise {A} (e : exn) : io A := λ db, (Raise e, db).

(** ** The database handle *)

(** Modelled from the spec: the database handle [app.state.services.database]
    (its [execute], [fetch_one] and [fetch_all]) and the store behind it,
    which the repository only calls. The model follows the spec's
    description of the collaborator: statements carry named, bound
    parameters; [execute] answers with the last inserted id or the number of
    affected rows; [fetch_one] with a row or nothing; [fetch_all] with the
    rows in the store's order. A statement that cannot be run (it does not
    parse, or one of its placeholders has no value) is a store-level error
    and changes nothing. *)
Module database.

(** Binding a Python value to a placeholder: [True] and [False] go in as
    1 and 0, [None] as NULL. *)
Definition bind_value (v : value) : value :=
  match v with
  | VBool b => VInt (Z.b2z b)
  | _ => v
  end.

(** The value of an expression, on a row when there is one. *)
Fixpoint eval (params : dict) (now : string) (r : option MapRequest)
    (e : expr) : value :=
  match e with
  | Param n => from_option bind_value VNone (params !! n)
  | Col c => from_option (column_value c) VNone r
  | Coalesce e1 e2 =>
      match eval params now r e1 with
      | VNone => eval params now r e2
      | v => v
      end
  | Now => VStr now
  end.

(** SQL equality: a comparison with NULL is never true. *)
Definition sql_eq (a b : value) : bool :=
  match a, b with
  | VInt x, VInt y => bool_decide (x = y)
  | VStr x, VStr y => bool_decide (x = y)
  | _, _ => false
  end.

Definition holds (params : dict) (now : string) (r : MapRequest)
    (c : cond) : bool :=
  match c with
  | Eq c e => sql_eq (column_value c r) (eval params now (Some r) e)
  | IsIn c e =>
      match eval params now (Some r) e with
      | VList l => existsb (λ z, sql_eq (column_value c r) (VInt z)) l
      | v => sql_eq (column_value c r) v
      end
  end.

(** The WHERE clause: the conjunction of its conditions. *)
Definition selected (params : dict) (now : string) (w : list cond)
    (r : MapRequest) : bool :=
  forallb (holds params now r) w.

(** Writing a value into a column; a NULL or a value of the wrong type is
    refused. *)
Definition store_column (c : column) (v : value) (r : MapRequest)
    : option MapRequest :=
  match c, v with
  | c_id, VInt z =>
      Some {| id := z; map_id := map_id r; player_id := player_id r;
              datetime := datetime r; active := active r |}
  | c_map_id, VInt z =>
      Some {| id := id r; map_id := z; player_id := player_id r;
              datetime := datetime r; active := active r |}
  | c_player_id, VInt z =>
      Some {| id := id r; map_id := map_id r; player_id := z;
              datetime := datetime r; active := active r |}
  | c_datetime, VStr s =>
      Some {| id := id r; map_id := map_id r; player_id := player_id r;
              datetime := s; active := active r |}
  | c_active, VInt z =>
      Some {| id := id r; map_id := map_id r; player_id := player_id r;
              datetime := datetime r; active := bool_decide (z ≠ 0) |}
  | _, _ => None
  end.

(** The assignments of a SET or VALUES list, left to right. *)
Fixpoint assign_all (params : dict) (now : string)
    (s : list (column * expr)) (r : MapRequest) : option MapRequest :=
  match s with
  | [] => Some r
  | (c, e) :: s' =>
      match store_column c (eval params now (Some r) e) r with
      | Some r' => assign_all params now s' r'
      | None => None
      end
  end.

(** The mapping of a fetched row: one key per selected column. *)
Definition project (columns : list column) (r : MapRequest) : dict :=
  list_to_map ((λ c, (column_name c, column_value c r)) <$> columns).

(** A statement the store can parse: SET and the select list are not
    empty. *)
Definition well_formed (q : statement) : bool :=
  match q with
  | Update [] _ => false
  | Select [] _ => false
  | _ => true
  end.

(** Every placeholder of the statement has a value. *)
Definition bound (q : statement) (params : dict) : bool :=
  forallb (λ n, bool_decide (is_Some (params !! n))) (placeholders q).

Record cursor := {
  fetched : list dict;
  lastrowid : Z;
  rowcount : Z;
}.

(** The columns an INSERT has to give: all but the auto-increment id. *)
Definition required : list column :=
  [c_map_id; c_player_id; c_datetime; c_active].

Definition count_changed (old new : list MapRequest) : Z :=
  Z.of_nat (length (filter (λ p : MapRequest * MapRequest, p.1 ≠ p.2)
                           (zip old new))).

(** Modelled from the spec: running a parsed and bound statement on the
    table gives the cursor, the new table and the new auto-increment value,
    or nothing when the store refuses a value. *)
Definition run (q : statement) (params : dict) (db : Database)
    : option (cursor * list MapRequest * Z) :=
  let now := clock db in
  let table := map_requests db in
  match q with
  | Insert vs =>
      if forallb (λ c, bool_decide (c ∈ vs.*1)) required then
        let blank := {| id := auto_increment db; map_id := 0;
                        player_id := 0; datetime := ""; active := false |} in
        match assign_all params now vs blank with
        | Some r =>
            Some ({| fetched := []; lastrowid := id r; rowcount := 1 |},
                  table ++ [r],
                  Z.max (auto_increment db) (id r) + 1)
        | None => None
        end
      else None
  | Select columns w =>
      let found := filter (λ r, selected params now w r) table in
      Some ({| fetched := project columns <$> found; lastrowid := 0;
               rowcount := Z.of_nat (length found) |},
            table, auto_increment db)
  | SelectCount alias w =>
      let found := filter (λ r, selected params now w r) table in
      Some ({| fetched := [ {[ alias := VInt (Z.of_nat (length found)) ]} ];
               lastrowid := 0; rowcount := 1 |},
            table, auto_increment db)
  | Update s w =>
      match mapM (λ r, if selected params now w r
                       then assign_all params now s r else Some r) table with
      | Some table' =>
          Some ({| fetched := []; lastrowid := 0;
                   rowcount := count_changed table table' |},
                table', auto_increment db)
      | None => None
      end
  | Delete w =>
      let kept := filter (λ r, ¬ selected params now w r) table in
      Some ({| fetched := []; lastrowid := 0;
               rowcount := Z.of_nat (length table) - Z.of_nat (length kept) |},
            kept, auto_increment db)
  end.

Definition log (q : statement) (params : dict) (db : Database) : Database :=
  {| map_requests := map_requests db; auto_increment := auto_increment db;
     clock := clock db; issued := issued db ++ [(q, params)] |}.

(** Modelled from the spec: issuing a statement to the store. It is
    recorded, then parsed, bound and run; a statement that fails one of
    these steps raises [StoreError] and leaves the table as it was. *)
Definition submit (q : statement) (params : dict) : io cursor := λ db,
  let db := log q params db in
  if well_formed q && bound q params then
    match run q params db with
    | Some (cur, table, next) =>
        (Return cur,
         {| map_requests := table; auto_increment := next;
            clock := clock db; issued := issued db |})
    | None => (Raise StoreError, db)
    end
  else (Raise StoreError, db).

(** Modelled from the spec: [execute] of the handle answers with the last
    inserted id, or with the number of affected rows when the statement
    inserted nothing. Either way the answer is an [int]. *)
Definition execute (q : statement) (params : dict) : io Z :=
  cur ← submit q params;
  mret (if bool_decide (lastrowid cur = 0) then rowcount cur
        else lastrowid cur).

(** Modelled from the spec: [fetch_one] of the handle answers with the
    first row of the result, or with [None]. *)
Definition fetch_one (q : statement) (params : dict) : io (option dict) :=
  cur ← submit q params;
  mret (head (fetched cur)).

(** Modelled from the spec: [fetch_all] of the handle answers with every
    row of the result, in the store's order. *)
Definition fetch_all (q : statement) (params : dict) : io (list dict) :=
  cur ← submit q params;
  mret (fetched cur).

End database.

(** ** The repository *)

(** [_UnsetSentinel]: an argument of [update] is either left [UNSET] or
    given. *)
Inductive unset (A : Type) :=
| UNSET
| Given (a : A).
Arguments UNSET {A}.
Arguments Given {A} a.

(** An optional integer filter as a parameter value. *)
Definition optional (o : option Z) : value := from_option VInt VNone o.

Definition READ_PARAMS : list column :=
  [c_id; c_map_id; c_player_id; c_datetime; c_active].

(** [MapRequestUpdateFields]: the fields given to [update], in the order
    they were put in. *)
Definition MapRequestUpdateFields := list (column * value).

Definition field_params (fields : MapRequestUpdateFields) : dict :=
  list_to_map ((λ kv, (column_name kv.1, kv.2)) <$> fields).

(** What the name [map_request] can hold: [None], an [int], or a fetched
    row with its mapping. *)
Inductive object :=
| PyNone
| PyInt (n : Z)
| PyRow (m : dict).

(** [o._mapping]: only a fetched row has the attribute. *)
Definition getattr_mapping (o : object) : io dict :=
  match o with
  | PyRow m => mret m
  | _ => raise AttributeError
  end.

Definition create (map_id player_id : Z) (active : bool) : io dict :=
  let query :=
    Insert [(c_map_id, Param "map_id"); (c_player_id, Param "player_id");
            (c_datetime, Now); (c_active, Param "active")] in
  let params : dict :=
    {[ "map_id" := VInt map_id; "player_id" := VInt player_id;
       "active" := VBool active ]} in
  rec_id ← database.execute query params;
  let query := Select READ_PARAMS [Eq c_id (Param "id")] in
  let params : dict := {[ "id" := VInt rec_id ]} in
  map_request ← database.fetch_one query params;
  match map_request with
  | None => raise AssertionError
  | Some m => mret m
  end.

Definition fetch_one (id map_id player_id active : option Z)
    : io (option dict) :=
  if bool_decide (id = None ∧ map_id = None ∧ player_id = None
                  ∧ active = None)
  then raise (ValueError "Must provide at least one parameter.")
  else
    let query :=
      Select READ_PARAMS
        [Eq c_id (Coalesce (Param "id") (Col c_id));
         Eq c_map_id (Coalesce (Param "map_id") (Col c_map_id));
         Eq c_player_id (Coalesce (Param "player_id") (Col c_player_id));
         Eq c_active (Coalesce (Param "active") (Col c_active))] in
    let params : dict :=
      {[ "id" := optional id; "map_id" := optional map_id;
         "player_id" := optional player_id; "active" := optional active ]} in
    map_request ← database.fetch_one query params;
    mret map_request.

Definition fetch_count (map_id player_id active : option Z) : io value :=
  let query :=
    SelectCount "count"
      [Eq c_map_id (Coalesce (Param "map_id") (Col c_map_id));
       Eq c_player_id (Coalesce (Param "player_id") (Col c_player_id));
       Eq c_active (Coalesce (Param "active") (Col c_active))] in
  let params : dict :=
    {[ "map_id" := optional map_id; "player_id" := optional player_id;
       "active" := optional active ]} in
  rec ← database.fetch_one query params;
  match rec with
  | None => raise AssertionError
  | Some m =>
      match m !! "count" with
      | Some n => mret n
      | None => raise (KeyError "count")
      end
  end.

Definition fetch_all (map_id player_id active : option Z) : io (list dict) :=
  let query :=
    Select READ_PARAMS
      [Eq c_map_id (Coalesce (Param "map_id") (Col c_map_id));
       Eq c_player_id (Coalesce (Param "player_id") (Col c_player_id));
       Eq c_active (Coalesce (Param "active") (Col c_active))] in
  let params : dict :=
    {[ "map_id" := optional map_id; "player_id" := optional player_id;
       "active" := optional active ]} in
  map_requests ← database.fetch_all query params;
  mret map_requests.

(** The fields [update] collects from its arguments. *)
Definition update_fields (player_id : unset Z) (active : unset bool)
    : MapRequestUpdateFields :=
  match player_id with
  | Given p => [(c_player_id, VInt p)]
  | UNSET => []
  end ++
  match active with
  | Given a => [(c_active, VBool a)]
  | UNSET => []
  end.

(** The UPDATE statement [update] writes for these fields. *)
Definition update_query (fields : MapRequestUpdateFields) : statement :=
  Update ((λ k, (k, Coalesce (Param (column_name k)) (Col k))) <$> fields.*1)
         [IsIn c_map_id (Param "map_ids")].

(** Its parameters, the dictionary under the key [map_id] merged with the
    fields; the fields win where a key is in both. *)
Definition update_params (map_ids : list Z) (fields : MapRequestUpdateFields)
    : dict :=
  field_params fields ∪ {[ "map_id" := VList map_ids ]}.

Definition update (map_ids : list Z) (player_id : unset Z)
    (active : unset bool) : io (option dict) :=
  let update_fields := update_fields player_id active in
  let query := update_query update_fields in
  let params := update_params map_ids update_fields in
  _ ← database.execute query params;
  let query := Select READ_PARAMS [IsIn c_map_id (Param "map_ids")] in
  let params : dict := {[ "map_ids" := VList map_ids ]} in
  map_request ← database.fetch_one query params;
  mret map_request.

Definition delete (id : Z) : io (option dict) :=
  let query := Select READ_PARAMS [Eq c_id (Param "id")] in
  let params : dict := {[ "id" := VInt id ]} in
  rec ← database.fetch_one query params;
  match rec with
  | None => mret None
  | Some _ =>
      let query := Delete [Eq c_id (Param "id")] in
      let params : dict := {[ "id" := VInt id ]} in
      n ← database.execute query params;
      let map_request := PyInt n in
      match map_request with
      | PyNone => mret None
      | _ => m ← getattr_mapping map_request; mret (Some m)
      end
  end.

(** ** Vocabulary of the properties *)

(** An optional filter agrees with a column value when it is absent or
    equal to it. *)
Definition agrees (o : option Z) (z : Z) : Prop :=
  match o with
  | Some x => z = x
  | None => True
  end.

#[global] Instance agrees_dec o z : Decision (agrees o z).
Proof. destruct o; simpl; apply _. Defined.

(** The SELECT and DELETE statements of [delete]. *)
Definition select_by_id : statement :=
  Select READ_PARAMS [Eq c_id (Param "id")].
Definition delete_by_id : statement := Delete [Eq c_id (Param "id")].

(** The row [create] inserts into a database. *)
Definition created (map_id player_id : Z) (active : bool) (db : Database)
    : MapRequest :=
  {| id := auto_increment db; map_id := map_id; player_id := player_id;
     datetime := clock db; active := active |}.

(** The auto-increment counter is positive and above every id in use. *)
Definition fresh_ids (db : Database) : Prop :=
  0 < auto_increment db ∧
  Forall (λ r, id r < auto_increment db) (map_requests db).

(** The columns a statement assigns. *)
Definition assigned_columns (q : statement) : list column :=
  match q with
  | Insert vs => vs.*1
  | Update s _ => s.*1
  | _ => []
  end.

(** The rows an operation returned, none when it raised. *)
Definition returned {A} (out : result (list A) * Database) : list A :=
  match out.1 with
  | Return l => l
  | Raise _ => []
  end.

(** A guarded outcome of [update]: the invalid-argument condition, or a
    normal return with every row as it was in [db]. *)
Definition guarded (db : Database) (out : result (option dict) * Database)
    : Prop :=
  (∃ msg, out.1 = Raise (ValueError msg))
  ∨ (∃ v, out.1 = Return v ∧ map_requests out.2 = map_requests db).

(** Some row has another [map_id] in [db'] than it had in [db]. *)
Definition changes_map_id (db db' : Database) : Prop :=
  ∃ (n : nat) r r',
    map_requests db !! n = Some r ∧ map_requests db' !! n = Some r'
    ∧ map_id r ≠ map_id r'.

(** The rows that agree with the filters of a read, in the order of the
    table. *)
Definition matching (i m p a : option Z) (db : Database) : list MapRequest :=
  filter (λ r, agrees i (id r) ∧ agrees m (map_id r) ∧ agrees p (player_id r)
               ∧ agrees a (Z.b2z (active r)))
         (map_requests db).

(** No two rows of the table share an id. *)
Definition unique_ids (db : Database) : Prop :=
  NoDup (id <$> map_requests db).

(** Two databases hold the same table, counter and clock. *)
Definition same_store (db db' : Database) : Prop :=
  map_requests db' = map_requests db
  ∧ auto_increment db' = auto_increment db
  ∧ clock db' = clock db.

(** The INSERT statement of [create] and its parameters. *)
Definition insert_request : statement :=
  Insert [(c_map_id, Param "map_id"); (c_player_id, Param "player_id");
          (c_datetime, Now); (c_active, Param "active")].
Definition create_params (map_id player_id : Z) (active : bool) : dict :=
  {[ "map_id" := VInt map_id; "player_id" := VInt player_id;
     "active" := VBool active ]}.

(** ** A small database *)

Definition r1 : MapRequest :=
  {| id := 1; map_id := 10; player_id := 7; datetime := "2024-01-01 00:00:00";
     active := false |}.
Definition r2 : MapRequest :=
  {| id := 2; map_id := 20; player_id := 8; datetime := "2024-01-02 00:00:00";
     active := false |}.
Definition r3 : MapRequest :=
  {| id := 3; map_id := 10; player_id := 9; datetime := "2024-01-03 00:00:00";
     active := true |}.

Definition db0 : Database :=
  {| map_requests := [r1; r2; r3]; auto_increment := 4;
     clock := "2024-02-01 12:00:00"; issued := [] |}.


(** * Properties *)

(** Running a computation of [io] one bind at a time. *)
Ltac io_unfold := unfold mbind, io_bind, mret, io_ret.

(** ** Filtering a list *)

Section filter_lemmas.
Context {A : Type} (P : A → Prop) `{!∀ x, Decision (P x)}.

Lemma filter_none (l : list A) : Forall (λ x, ¬ P x) l → filter P l = [].
Proof.
  induction 1 as [|x l Hx _ IH]; [done|].
  by rewrite filter_cons_False.
Qed.

Lemma filter_all (l : list A) : Forall P l → filter P l = l.
Proof.
  induction 1 as [|x l Hx _ IH]; [done|].
  rewrite filter_cons_True by done. by rewrite IH.
Qed.

End filter_lemmas.

(** ** What the handle answers *)

Section store.
Import database.

Lemma submit_select columns w params db :
  well_formed (Select columns w) = true →
  bound (Select columns w) params = true →
  submit (Select columns w) params db =
    (Return {| fetched := project columns <$>
                 filter (λ r, selected params (clock db) w r) (map_requests db);
               lastrowid := 0;
               rowcount := Z.of_nat (length
                 (filter (λ r, selected params (clock db) w r)
                         (map_requests db))) |},
     log (Select columns w) params db).
Proof.
  intros Hwf Hb. unfold submit. rewrite Hwf, Hb. reflexivity.
Qed.

Lemma fetch_all_select columns w params db :
  well_formed (Select columns w) = true →
  bound (Select columns w) params = true →
  fetch_all (Select columns w) params db =
    (Return (project columns <$>
               filter (λ r, selected params (clock db) w r) (map_requests db)),
     log (Select columns w) params db).
Proof.
  intros Hwf Hb. unfold fetch_all. io_unfold.
  rewrite submit_select by done. reflexivity.
Qed.

Lemma fetch_one_select columns w params db :
  well_formed (Select columns w) = true →
  bound (Select columns w) params = true →
  fetch_one (Select columns w) params db =
    (Return (head (project columns <$>
               filter (λ r, selected params (clock db) w r) (map_requests db))),
     log (Select columns w) params db).
Proof.
  intros Hwf Hb. unfold fetch_one. io_unfold.
  rewrite submit_select by done. reflexivity.
Qed.

Lemma fetch_one_count alias w params db :
  bound (SelectCount alias w) params = true →
  fetch_one (SelectCount alias w) params db =
    (Return (Some {[ alias := VInt (Z.of_nat (length
               (filter (λ r, selected params (clock db) w r)
                       (map_requests db)))) ]}),
     log (SelectCount alias w) params db).
Proof.
  intros Hb. unfold fetch_one, submit. io_unfold.
  rewrite Hb. reflexivity.
Qed.

(** A statement that does not parse or is not bound is refused, and the
    table stays as it was. *)
Lemma execute_refused q params db :
  well_formed q && bound q params = false →
  execute q params db = (Raise StoreError, log q params db).
Proof.
  intros Hq. unfold execute, submit. io_unfold. by rewrite Hq.
Qed.

Lemma execute_delete w params db :
  bound (Delete w) params = true →
  execute (Delete w) params db =
    (Return (Z.of_nat (length (map_requests db)) -
             Z.of_nat (length (filter (λ r, ¬ selected params (clock db) w r)
                                      (map_requests db)))),
     {| map_requests :=
          filter (λ r, ¬ selected params (clock db) w r) (map_requests db);
        auto_increment := auto_increment db;
        clock := clock db;
        issued := issued db ++ [(Delete w, params)] |}).
Proof.
  intros Hb. unfold execute, submit. io_unfold.
  rewrite Hb. reflexivity.
Qed.

(** *** Conditions of the WHERE clauses *)

Lemma holds_coalesce (params : dict) now r c n o z :
  params !! n = Some (optional o) →
  column_value c r = VInt z →
  holds params now r (Eq c (Coalesce (Param n) (Col c)))
    = bool_decide (agrees o z).
Proof.
  intros Hn Hc. unfold holds. simpl. rewrite Hn, Hc.
  destruct o as [x|]; simpl.
  - reflexivity.
  - by apply bool_decide_eq_true_2.
Qed.

Lemma holds_param_int (params : dict) now r c n x z :
  params !! n = Some (VInt x) →
  column_value c r = VInt z →
  holds params now r (Eq c (Param n)) = bool_decide (z = x).
Proof. intros Hn Hc. unfold holds. simpl. by rewrite Hn, Hc. Qed.

Lemma selected_by_id (i : Z) now r :
  selected {[ "id" := VInt i ]} now [Eq c_id (Param "id")] r ↔ id r = i.
Proof.
  unfold selected, forallb.
  rewrite (holds_param_int _ _ _ _ _ i (id r)) by done.
  rewrite andb_True, bool_decide_spec. cbn. tauto.
Qed.

Lemma selected_three (m p a : option Z) now r :
  selected {[ "map_id" := optional m; "player_id" := optional p;
              "active" := optional a ]} now
    [Eq c_map_id (Coalesce (Param "map_id") (Col c_map_id));
     Eq c_player_id (Coalesce (Param "player_id") (Col c_player_id));
     Eq c_active (Coalesce (Param "active") (Col c_active))] r
  ↔ agrees m (map_id r) ∧ agrees p (player_id r)
    ∧ agrees a (Z.b2z (active r)).
Proof.
  unfold selected, forallb.
  rewrite (holds_coalesce _ _ _ _ _ m (map_id r)) by done.
  rewrite (holds_coalesce _ _ _ _ _ p (player_id r)) by done.
  rewrite (holds_coalesce _ _ _ _ _ a (Z.b2z (active r))) by done.
  rewrite !andb_True, !bool_decide_spec. cbn. tauto.
Qed.

Lemma selected_four (i m p a : option Z) now r :
  selected
    {[ "id" := optional i; "map_id" := optional m;
       "player_id" := optional p; "active" := optional a ]} now
    [Eq c_id (Coalesce (Param "id") (Col c_id));
     Eq c_map_id (Coalesce (Param "map_id") (Col c_map_id));
     Eq c_player_id (Coalesce (Param "player_id") (Col c_player_id));
     Eq c_active (Coalesce (Param "active") (Col c_active))] r
  ↔ agrees i (id r) ∧ agrees m (map_id r) ∧ agrees p (player_id r)
    ∧ agrees a (Z.b2z (active r)).
Proof.
  unfold selected, forallb.
  rewrite (holds_coalesce _ _ _ _ _ i (id r)) by done.
  rewrite (holds_coalesce _ _ _ _ _ m (map_id r)) by done.
  rewrite (holds_coalesce _ _ _ _ _ p (player_id r)) by done.
  rewrite (holds_coalesce _ _ _ _ _ a (Z.b2z (active r))) by done.
  rewrite !andb_True, !bool_decide_spec. cbn. tauto.
Qed.

(** *** Columns an UPDATE leaves alone *)

Lemma store_column_frame c v r r' c' :
  store_column c v r = Some r' → c' ≠ c →
  column_value c' r' = column_value c' r.
Proof.
  intros Hs Hne.
  destruct c, v; simplify_eq/=; by destruct c'.
Qed.

Lemma assign_all_frame params now s r r' c' :
  assign_all params now s r = Some r' → c' ∉ s.*1 →
  column_value c' r' = column_value c' r.
Proof.
  revert r. induction s as [|[c e] s IH]; intros r Hs Hnot.
  - by simplify_eq/=.
  - simpl in Hs, Hnot.
    destruct (store_column c (eval params now (Some r) e) r) as [r1|] eqn:H1;
      [|done].
    apply not_elem_of_cons in Hnot as [Hne Hnot].
    rewrite (IH r1 Hs Hnot). by eapply store_column_frame.
Qed.

(** An UPDATE leaves every column it does not assign as it was, row by
    row. *)
Lemma run_update_frame s w params db cur table next c' :
  run (Update s w) params db = Some (cur, table, next) → c' ∉ s.*1 →
  column_value c' <$> table = column_value c' <$> map_requests db.
Proof.
  unfold run. intros Hrun Hnot.
  destruct (mapM _ (map_requests db)) as [table'|] eqn:Hm; [|done].
  simplify_eq. apply mapM_Some in Hm.
  induction Hm as [|r r' l l' Hr _ IH]; [done|].
  rewrite !fmap_cons, IH. f_equal.
  destruct (selected params (clock db) w r).
  - by eapply assign_all_frame.
  - by simplify_eq.
Qed.

End store.

(** ** Rows and their mappings *)

Lemma project_lookup r c :
  database.project READ_PARAMS r !! column_name c = Some (column_value c r).
Proof. by destruct c. Qed.

(** The mapping of a row read with [READ_PARAMS] determines the row. *)
Lemma project_inj r r' :
  database.project READ_PARAMS r = database.project READ_PARAMS r' → r = r'.
Proof.
  intros Heq.
  assert (∀ c, column_value c r = column_value c r') as Hc.
  { intros c. pose proof (project_lookup r c) as H1.
    rewrite Heq, project_lookup in H1. by simplify_eq. }
  pose proof (Hc c_id). pose proof (Hc c_map_id). pose proof (Hc c_player_id).
  pose proof (Hc c_datetime). pose proof (Hc c_active).
  destruct r as [i m p d a], r' as [i' m' p' d' a']. simplify_eq/=.
  f_equal. by destruct a, a'.
Qed.

(** ** The reads *)

Lemma fetch_all_spec m p a db :
  ∃ q params,
    fetch_all m p a db =
      (Return (database.project READ_PARAMS <$>
                 filter (λ r, agrees m (map_id r) ∧ agrees p (player_id r)
                              ∧ agrees a (Z.b2z (active r)))
                        (map_requests db)),
       database.log q params db).
Proof.
  eexists _, _. unfold fetch_all. io_unfold.
  rewrite fetch_all_select by done.
  do 3 f_equal. apply list_filter_iff. intros r. apply selected_three.
Qed.

Lemma returned_fetch_all m p a db :
  returned (fetch_all m p a db) =
    database.project READ_PARAMS <$>
      filter (λ r, agrees m (map_id r) ∧ agrees p (player_id r)
                   ∧ agrees a (Z.b2z (active r))) (map_requests db).
Proof.
  destruct (fetch_all_spec m p a db) as (q & ps & ->). reflexivity.
Qed.

(** Leaving filters out can only add rows. *)
Lemma fetch_all_omit m p a m' p' a' db :
  (m' = m ∨ m' = None) → (p' = p ∨ p' = None) → (a' = a ∨ a' = None) →
  returned (fetch_all m p a db) ⊆ returned (fetch_all m' p' a' db).
Proof.
  intros Hm Hp Ha d. rewrite !returned_fetch_all, !list_elem_of_fmap.
  intros (r & -> & Hr). exists r. split; [done|].
  apply list_elem_of_filter in Hr as [(H1 & H2 & H3) Hr].
  apply list_elem_of_filter. split; [|done].
  destruct Hm as [->| ->], Hp as [->| ->], Ha as [->| ->]; done.
Qed.

Lemma fetch_count_spec m p a db :
  ∃ q params,
    fetch_count m p a db =
      (Return (VInt (Z.of_nat (length
                 (filter (λ r, agrees m (map_id r) ∧ agrees p (player_id r)
                              ∧ agrees a (Z.b2z (active r)))
                         (map_requests db))))),
       database.log q params db).
Proof.
  eexists _, _. unfold fetch_count. io_unfold.
  rewrite fetch_one_count by done.
  rewrite lookup_singleton_eq.
  do 5 f_equal. apply list_filter_iff. intros r. apply selected_three.
Qed.

Lemma fetch_one_spec i m p a db :
  ¬ (i = None ∧ m = None ∧ p = None ∧ a = None) →
  ∃ q params,
    fetch_one i m p a db =
      (Return (head (database.project READ_PARAMS <$>
                 filter (λ r, agrees i (id r) ∧ agrees m (map_id r)
                              ∧ agrees p (player_id r)
                              ∧ agrees a (Z.b2z (active r)))
                        (map_requests db))),
       database.log q params db).
Proof.
  intros Hsome. eexists _, _. unfold fetch_one.
  rewrite bool_decide_eq_false_2 by done. io_unfold.
  rewrite fetch_one_select by done.
  do 4 f_equal. apply list_filter_iff. intros r. apply selected_four.
Qed.

Lemma fetch_one_by_id i db :
  ∃ q params,
    fetch_one (Some i) None None None db =
      (Return (head (database.project READ_PARAMS <$>
                 filter (λ r, id r = i) (map_requests db))),
       database.log q params db).
Proof.
  destruct (fetch_one_spec (Some i) None None None db) as (q & params & Hf).
  { by intros [? _]. }
  exists q, params. rewrite Hf. do 4 f_equal.
  apply list_filter_iff. intros r. simpl. tauto.
Qed.

(** ** [delete] *)

(** What [delete] does, by the outcome of its initial read. *)
Lemma delete_spec i db :
  delete i db =
    match head (filter (λ r, id r = i) (map_requests db)) with
    | None => (Return None, database.log select_by_id {[ "id" := VInt i ]} db)
    | Some _ =>
        (Raise AttributeError,
         {| map_requests := filter (λ r, id r ≠ i) (map_requests db);
            auto_increment := auto_increment db;
            clock := clock db;
            issued := issued db ++ [(select_by_id, {[ "id" := VInt i ]});
                                    (delete_by_id, {[ "id" := VInt i ]})] |})
    end.
Proof.
  unfold delete. io_unfold.
  rewrite fetch_one_select by done.
  rewrite (list_filter_iff _ (λ r, id r = i)) by (intros; apply selected_by_id).
  destruct (filter (λ r, id r = i) (map_requests db)) as [|r0 l] eqn:Hf.
  - reflexivity.
  - cbn [fmap list_fmap head].
    rewrite execute_delete by done.
    unfold getattr_mapping, raise, database.log.
    cbn [map_requests clock auto_increment issued].
    rewrite <- app_assoc. cbn [app].
    do 2 f_equal.
    apply list_filter_iff. intros r. by rewrite selected_by_id.
Qed.

(** On a row that exists [delete] removes it and raises: the value it
    goes on to read [_mapping] from is the integer [execute] answered
    with. *)
Lemma delete_existing i db r :
  r ∈ map_requests db → id r = i →
  delete i db =
    (Raise AttributeError,
     {| map_requests := filter (λ r, id r ≠ i) (map_requests db);
        auto_increment := auto_increment db;
        clock := clock db;
        issued := issued db ++ [(select_by_id, {[ "id" := VInt i ]});
                                (delete_by_id, {[ "id" := VInt i ]})] |}).
Proof.
  intros Hr Hi. rewrite delete_spec.
  destruct (filter (λ r, id r = i) (map_requests db)) as [|r0 l] eqn:Hf;
    [|done].
  exfalso. by eapply (filter_nil_not_elem_of (λ r, id r = i)).
Qed.

(** ** [create] *)

Lemma create_spec m p a db :
  auto_increment db ≠ 0 →
  Forall (λ r, id r ≠ auto_increment db) (map_requests db) →
  ∃ q1 params1 q2 params2,
    create m p a db =
      (Return (database.project READ_PARAMS (created m p a db)),
       {| map_requests := map_requests db ++ [created m p a db];
          auto_increment := auto_increment db + 1;
          clock := clock db;
          issued := issued db ++ [(q1, params1); (q2, params2)] |}).
Proof.
  intros Hnz Hfresh. eexists _, _, _, _.
  unfold create. io_unfold.
  unfold database.execute at 1. io_unfold.
  unfold database.submit at 1.
  match goal with
  | |- context [database.well_formed ?q && database.bound ?q ?ps] =>
      replace (database.well_formed q && database.bound q ps) with true by done
  end.
  unfold database.run.
  match goal with
  | |- context [forallb ?f database.required] =>
      replace (forallb f database.required) with true by done
  end.
  cbn [database.log clock auto_increment map_requests issued].
  match goal with
  | |- context [database.assign_all ?ps ?now ?vs ?b] =>
      replace (database.assign_all ps now vs b)
        with (Some (created m p a db)) by (by destruct a)
  end.
  cbn [created id]. rewrite Z.max_id.
  rewrite bool_decide_eq_false_2 by done.
  rewrite fetch_one_select by done.
  cbn [database.log clock auto_increment map_requests issued].
  rewrite (list_filter_iff _ (λ r, id r = auto_increment db))
    by (intros; apply selected_by_id).
  rewrite filter_app.
  rewrite (filter_none _ (map_requests db)) by done.
  rewrite app_nil_l, filter_cons_True by done.
  unfold database.log.
  cbn [fmap list_fmap head clock auto_increment map_requests issued].
  rewrite <- app_assoc. reflexivity.
Qed.

Lemma filter_new_id rows rec i :
  id rec = i → Forall (λ r, id r < i) rows →
  filter (λ r, id r = i) (rows ++ [rec]) = [rec].
Proof.
  intros Hi Hlt. rewrite filter_app, filter_none.
  - by rewrite app_nil_l, filter_cons_True.
  - eapply Forall_impl; [done|]. simpl. lia.
Qed.

Lemma filter_old_ids rows rec i :
  id rec = i → Forall (λ r, id r < i) rows →
  filter (λ r, id r ≠ i) (rows ++ [rec]) = rows.
Proof.
  intros Hi Hlt. rewrite filter_app, filter_all.
  - rewrite filter_cons_False by (by intros []). by rewrite app_nil_r.
  - eapply Forall_impl; [done|]. simpl. lia.
Qed.

(** Under fresh ids the round trip goes wrong at its third step: the row
    is created and read back, then [delete] removes it and raises. *)
Lemma roundtrip_raises m p a db :
  fresh_ids db →
  ∃ db1 db2 db3 db4,
    create m p a db =
      (Return (database.project READ_PARAMS (created m p a db)), db1)
    ∧ fetch_one (Some (auto_increment db)) None None None db1 =
        (Return (Some (database.project READ_PARAMS (created m p a db))), db2)
    ∧ delete (auto_increment db) db2 = (Raise AttributeError, db3)
    ∧ map_requests db3 = map_requests db
    ∧ fetch_one (Some (auto_increment db)) None None None db3 =
        (Return None, db4).
Proof.
  intros [Hpos Hlt].
  destruct (create_spec m p a db) as (q1 & ps1 & q2 & ps2 & Hc).
  { lia. }
  { eapply Forall_impl; [done|]. simpl. lia. }
  set (db1 := {| map_requests := map_requests db ++ [created m p a db];
                 auto_increment := auto_increment db + 1;
                 clock := clock db;
                 issued := issued db ++ [(q1, ps1); (q2, ps2)] |}) in *.
  destruct (fetch_one_by_id (auto_increment db) db1) as (q3 & ps3 & Hf).
  set (db2 := database.log q3 ps3 db1) in *.
  pose proof (delete_spec (auto_increment db) db2) as Hd.
  change (map_requests db2) with (map_requests db ++ [created m p a db]) in Hd.
  change (map_requests db1) with (map_requests db ++ [created m p a db]) in Hf.
  rewrite filter_new_id in Hd, Hf by done.
  rewrite filter_old_ids in Hd by done.
  simpl in Hd, Hf.
  match type of Hd with _ = (_, ?d) => set (db3 := d) in * end.
  destruct (fetch_one_by_id (auto_increment db) db3) as (q4 & ps4 & Hg).
  simpl in Hg. rewrite filter_none in Hg.
  - by exists db1, db2, db3, (database.log q4 ps4 db3).
  - eapply Forall_impl; [done|]. simpl. lia.
Qed.

(** ** [update] *)

Lemma update_query_placeholder fields :
  "map_ids" ∈ placeholders (update_query fields).
Proof.
  unfold update_query, placeholders. apply elem_of_app. right.
  unfold where_placeholders. simpl. constructor.
Qed.

Lemma update_params_map_id ids p a :
  update_params ids (update_fields p a) !! "map_id" = Some (VList ids).
Proof. by destruct p, a. Qed.

Lemma update_params_map_ids ids p a :
  update_params ids (update_fields p a) !! "map_ids" = None.
Proof. by destruct p, a. Qed.

Lemma update_not_bound ids p a :
  database.bound (update_query (update_fields p a))
                 (update_params ids (update_fields p a)) = false.
Proof. by destruct p, a. Qed.

(** The UPDATE of [update] is refused, so [update] raises before its
    read. *)
Lemma update_raises ids p a db :
  update ids p a db =
    (Raise StoreError,
     database.log (update_query (update_fields p a))
                  (update_params ids (update_fields p a)) db).
Proof.
  unfold update. io_unfold.
  rewrite execute_refused; [done|].
  rewrite update_not_bound. apply andb_false_r.
Qed.

(** The store refuses an UPDATE whose SET list is empty, whatever its
    parameters. *)
Lemma execute_empty_set w params db :
  database.execute (Update [] w) params db =
    (Raise StoreError, database.log (Update [] w) params db).
Proof. by apply execute_refused. Qed.

Lemma update_query_columns p a :
  assigned_columns (update_query (update_fields p a)) =
    match p with Given _ => [c_player_id] | UNSET => [] end ++
    match a with Given _ => [c_active] | UNSET => [] end.
Proof. by destruct p, a. Qed.

Lemma update_query_assigns p a c :
  c ∈ assigned_columns (update_query (update_fields p a)) →
  c = c_player_id ∨ c = c_active.
Proof.
  rewrite update_query_columns. intros Hc.
  destruct p, a; simpl in Hc;
    repeat (apply elem_of_cons in Hc as [->|Hc]; [auto|]);
    by apply elem_of_nil in Hc.
Qed.

(** The statement of [update], written out: one assignment
    [k = COALESCE(:k, k)] per field given, [player_id] before [active]. *)
Lemma update_query_shape p a :
  update_query (update_fields p a) =
    Update ((λ k, (k, Coalesce (Param (column_name k)) (Col k))) <$>
              (match p with Given _ => [c_player_id] | UNSET => [] end ++
               match a with Given _ => [c_active] | UNSET => [] end))
           [IsIn c_map_id (Param "map_ids")].
Proof. by destruct p, a. Qed.

Lemma update_query_names_player_id p a :
  c_player_id ∈ assigned_columns (update_query (update_fields p a))
  ↔ p ≠ UNSET.
Proof.
  rewrite update_query_columns. split.
  - intros H. destruct p; [|discriminate]. destruct a; simpl in H;
      repeat (apply elem_of_cons in H as [H|H]; [discriminate|]);
      by apply elem_of_nil in H.
  - intros H. destruct p; [done|]. left.
Qed.

Lemma update_query_names_active p a :
  c_active ∈ assigned_columns (update_query (update_fields p a))
  ↔ a ≠ UNSET.
Proof.
  rewrite update_query_columns. split.
  - intros H. destruct a; [|discriminate]. destruct p; simpl in H;
      repeat (apply elem_of_cons in H as [H|H]; [discriminate|]);
      by apply elem_of_nil in H.
  - intros H. destruct a; [done|]. destruct p; simpl; repeat constructor.
Qed.

Lemma update_params_player_id ids p a :
  update_params ids (update_fields p a) !! "player_id" =
    match p with Given x => Some (VInt x) | UNSET => None end.
Proof. by destruct p, a. Qed.

Lemma update_params_active ids p a :
  update_params ids (update_fields p a) !! "active" =
    match a with Given b => Some (VBool b) | UNSET => None end.
Proof. by destruct p, a. Qed.

(** Reading a column off the rows of two tables. *)
Lemma column_frame_id (t t' : list MapRequest) :
  column_value c_id <$> t = column_value c_id <$> t' → id <$> t = id <$> t'.
Proof.
  intros H.
  apply (f_equal (fmap (λ v, match v with VInt z => z | _ => 0 end))) in H.
  rewrite <- !list_fmap_compose in H. exact H.
Qed.

Lemma column_frame_map_id (t t' : list MapRequest) :
  column_value c_map_id <$> t = column_value c_map_id <$> t' →
  map_id <$> t = map_id <$> t'.
Proof.
  intros H.
  apply (f_equal (fmap (λ v, match v with VInt z => z | _ => 0 end))) in H.
  rewrite <- !list_fmap_compose in H. exact H.
Qed.

Lemma column_frame_player_id (t t' : list MapRequest) :
  column_value c_player_id <$> t = column_value c_player_id <$> t' →
  player_id <$> t = player_id <$> t'.
Proof.
  intros H.
  apply (f_equal (fmap (λ v, match v with VInt z => z | _ => 0 end))) in H.
  rewrite <- !list_fmap_compose in H. exact H.
Qed.

Lemma column_frame_datetime (t t' : list MapRequest) :
  column_value c_datetime <$> t = column_value c_datetime <$> t' →
  datetime <$> t = datetime <$> t'.
Proof.
  intros H.
  apply (f_equal (fmap (λ v, match v with VStr z => z | _ => "" end))) in H.
  rewrite <- !list_fmap_compose in H. exact H.
Qed.

Lemma column_frame_active (t t' : list MapRequest) :
  column_value c_active <$> t = column_value c_active <$> t' →
  active <$> t = active <$> t'.
Proof.
  intros H.
  apply (f_equal (fmap (λ v, match v with
                              | VInt z => bool_decide (z ≠ 0)
                              | _ => false
                              end))) in H.
  rewrite <- !list_fmap_compose in H.
  etrans; [|etrans; [exact H|]]; apply list_fmap_ext; intros _ r _;
    unfold compose; simpl; by destruct (active r).
Qed.

(** * The operations of the repository *)

(** C1. [delete] on an id whose row exists, here row 2 of [db0]: the
    initial read finds the row, the DELETE statement removes it, and the
    value returned is then built from what the DELETE answered, an integer
    without a [_mapping], so the call raises [AttributeError] and the
    snapshot of the initial read is not returned. *)
Theorem delete_existing_row_raises :
  database.fetch_one select_by_id {[ "id" := VInt 2 ]} db0 =
    (Return (Some (database.project READ_PARAMS r2)),
     database.log select_by_id {[ "id" := VInt 2 ]} db0)
  ∧ (delete 2 db0).1 = Raise AttributeError
  ∧ map_requests (delete 2 db0).2 = [r1; r3]
  ∧ issued (delete 2 db0).2 =
      [(select_by_id, {[ "id" := VInt 2 ]});
       (delete_by_id, {[ "id" := VInt 2 ]})].
Proof.
  split.
  - unfold select_by_id. rewrite fetch_one_select by done.
    rewrite (list_filter_iff _ (λ r, id r = 2))
      by (intros; apply selected_by_id).
    reflexivity.
  - rewrite (delete_existing 2 db0 r2); [done| |done].
    unfold db0; simpl. repeat constructor.
Qed.

(** C2. [update [10; 20] active=True] on [db0], where row [r1] has
    [map_id] 10 and is inactive: the call raises a store-level error and
    every row, [r1] included, is left as it was, so [active] is not set on
    the rows whose [map_id] is 10 or 20. *)
Theorem update_active_leaves_rows_inactive :
  (update [10; 20] UNSET (Given true) db0).1 = Raise StoreError
  ∧ map_requests (update [10; 20] UNSET (Given true) db0).2 = [r1; r2; r3]
  ∧ map_id r1 = 10 ∧ active r1 = false.
Proof. rewrite update_raises. done. Qed.

(** C3. For every call to [update] with [player_id] or [active] given, the
    UPDATE statement refers to the placeholder [:map_ids], while its
    parameters hold the list under the key [map_id] and have no key
    [map_ids]; the store refuses it, so the call raises a store-level error,
    that statement is the only one issued and no row is updated. *)
Theorem update_binds_map_id_not_map_ids ids p a db :
  p ≠ UNSET ∨ a ≠ UNSET →
  "map_ids" ∈ placeholders (update_query (update_fields p a))
  ∧ update_params ids (update_fields p a) !! "map_id" = Some (VList ids)
  ∧ update_params ids (update_fields p a) !! "map_ids" = None
  ∧ (update ids p a db).1 = Raise StoreError
  ∧ map_requests (update ids p a db).2 = map_requests db
  ∧ issued (update ids p a db).2 =
      issued db ++ [(update_query (update_fields p a),
                     update_params ids (update_fields p a))].
Proof.
  intros _. rewrite update_raises.
  split; [apply update_query_placeholder|].
  split; [apply update_params_map_id|].
  split; [apply update_params_map_ids|]. done.
Qed.

Lemma update_binds_map_id_not_map_ids_witness :
  (@UNSET Z ≠ UNSET ∨ Given true ≠ UNSET)
  ∧ "map_ids" ∈ placeholders (update_query (update_fields UNSET (Given true)))
  ∧ update_params [10; 20] (update_fields UNSET (Given true)) !! "map_id"
      = Some (VList [10; 20])
  ∧ update_params [10; 20] (update_fields UNSET (Given true)) !! "map_ids"
      = None
  ∧ (update [10; 20] UNSET (Given true) db0).1 = Raise StoreError
  ∧ map_requests (update [10; 20] UNSET (Given true) db0).2
      = map_requests db0
  ∧ issued (update [10; 20] UNSET (Given true) db0).2 =
      issued db0 ++ [(update_query (update_fields UNSET (Given true)),
                      update_params [10; 20]
                        (update_fields UNSET (Given true)))].
Proof.
  split.
  - right. discriminate.
  - apply (update_binds_map_id_not_map_ids [10; 20] UNSET (Given true) db0).
    right. discriminate.
Defined.

(** C4. [fetch_one] with all four filters absent raises [ValueError], the
    module's invalid-argument condition, and leaves the database as it was:
    no statement is issued and no row is read. *)
Theorem fetch_one_without_filters db :
  fetch_one None None None None db =
    (Raise (ValueError "Must provide at least one parameter."), db)
  ∧ issued (fetch_one None None None None db).2 = issued db.
Proof. done. Qed.

(** C5, as stated, does not hold: no call to [update] changes the
    [map_id] of a row. *)
Lemma update_changes_map_id_refuted :
  ¬ ∃ ids p a db, changes_map_id db (update ids p a db).2.
Proof.
  intros (ids & p & a & db & n & r & r' & Hr & Hr' & Hne).
  rewrite update_raises in Hr'. simpl in Hr'. congruence.
Qed.

(** C5, amended. The UPDATE statement of [update] has one assignment
    [k = COALESCE(:k, k)] for [player_id] exactly when [player_id] is
    given and one for [active] exactly when [active] is given, the value
    given being bound under the name of the field; it has none for
    [map_id], [id] or [datetime]. That statement is the one [update]
    issues. Whatever parameters such a statement is run with, the store
    leaves [map_id], [id] and [datetime] of every row as they were, and
    also [player_id] and [active] when they are not given. No call to
    [update] changes the [map_id] of a row. *)
Theorem update_keeps_map_id ids p a :
  update_query (update_fields p a) =
    Update ((λ k, (k, Coalesce (Param (column_name k)) (Col k))) <$>
              (match p with Given _ => [c_player_id] | UNSET => [] end ++
               match a with Given _ => [c_active] | UNSET => [] end))
           [IsIn c_map_id (Param "map_ids")]
  ∧ (c_player_id ∈ assigned_columns (update_query (update_fields p a))
     ↔ p ≠ UNSET)
  ∧ (c_active ∈ assigned_columns (update_query (update_fields p a))
     ↔ a ≠ UNSET)
  ∧ (∀ c, c ∈ assigned_columns (update_query (update_fields p a)) →
          c = c_player_id ∨ c = c_active)
  ∧ update_params ids (update_fields p a) !! "player_id" =
      match p with Given x => Some (VInt x) | UNSET => None end
  ∧ update_params ids (update_fields p a) !! "active" =
      match a with Given b => Some (VBool b) | UNSET => None end
  ∧ (∀ db, issued (update ids p a db).2 =
           issued db ++ [(update_query (update_fields p a),
                          update_params ids (update_fields p a))])
  ∧ (∀ params db cur table next,
       database.run (update_query (update_fields p a)) params db =
         Some (cur, table, next) →
       map_id <$> table = map_id <$> map_requests db
       ∧ id <$> table = id <$> map_requests db
       ∧ datetime <$> table = datetime <$> map_requests db
       ∧ (p = UNSET → player_id <$> table = player_id <$> map_requests db)
       ∧ (a = UNSET → active <$> table = active <$> map_requests db))
  ∧ (∀ db, map_id <$> map_requests (update ids p a db).2 =
           map_id <$> map_requests db).
Proof.
  split; [apply update_query_shape|].
  split; [apply update_query_names_player_id|].
  split; [apply update_query_names_active|].
  split; [intros c; apply update_query_assigns|].
  split; [apply update_params_player_id|].
  split; [apply update_params_active|].
  split; [intros db; by rewrite update_raises|].
  split; [|intros db; by rewrite update_raises].
  intros params db cur table next Hrun.
  assert (∀ c, c ∉ assigned_columns (update_query (update_fields p a)) →
               column_value c <$> table = column_value c <$> map_requests db)
    as Hframe.
  { intros c Hc. exact (run_update_frame _ _ _ _ _ _ _ c Hrun Hc). }
  split; [|split; [|split; [|split]]].
  - apply column_frame_map_id, Hframe.
    intros [?|?]%(update_query_assigns p a); discriminate.
  - apply column_frame_id, Hframe.
    intros [?|?]%(update_query_assigns p a); discriminate.
  - apply column_frame_datetime, Hframe.
    intros [?|?]%(update_query_assigns p a); discriminate.
  - intros ->. apply column_frame_player_id, Hframe.
    by intros ?%update_query_names_player_id.
  - intros ->. apply column_frame_active, Hframe.
    by intros ?%update_query_names_active.
Qed.

Lemma update_keeps_map_id_witness :
  ∃ table,
    database.run (update_query (update_fields UNSET (Given true)))
      {[ "map_ids" := VList [10]; "active" := VBool true ]} db0 =
      Some ({| database.fetched := []; database.lastrowid := 0;
               database.rowcount := 1 |}, table, 4)
    ∧ active <$> table = [true; false; true]
    ∧ map_id <$> table = map_id <$> map_requests db0
    ∧ player_id <$> table = player_id <$> map_requests db0.
Proof.
  eexists.
  assert (database.run (update_query (update_fields UNSET (Given true)))
            {[ "map_ids" := VList [10]; "active" := VBool true ]} db0 =
          Some ({| database.fetched := []; database.lastrowid := 0;
                   database.rowcount := 1 |},
                [ {| id := 1; map_id := 10; player_id := 7;
                     datetime := "2024-01-01 00:00:00"; active := true |};
                  r2; r3 ], 4)) as Hrun by (vm_compute; reflexivity).
  pose proof (update_keeps_map_id [10] UNSET (Given true))
    as (_ & _ & _ & _ & _ & _ & _ & Hframe & _).
  destruct (Hframe _ _ _ _ _ Hrun) as (Hm & _ & _ & Hp & _).
  split; [exact Hrun|]. split; [reflexivity|].
  split; [exact Hm|exact (Hp eq_refl)].
Defined.

(** C6, as stated, does not hold: [update [10]] with neither field given,
    on [db0], neither raises the invalid-argument condition nor returns
    with the rows unchanged. *)
Lemma update_without_fields_not_guarded :
  ¬ guarded db0 (update [10] UNSET UNSET db0).
Proof.
  unfold guarded. rewrite update_raises.
  intros [[msg H]|[v [H _]]]; discriminate.
Qed.

(** C6, amended. With neither [player_id] nor [active] given, [update] has
    no guard: it issues an UPDATE statement whose SET list is empty; the
    store refuses that statement whatever its parameters, so the call always
    raises a store-level error, and every row is left as it was. *)
Theorem update_without_fields_store_error ids db :
  update_query (update_fields UNSET UNSET) =
    Update [] [IsIn c_map_id (Param "map_ids")]
  ∧ (∀ params,
       database.execute (update_query (update_fields UNSET UNSET)) params db =
         (Raise StoreError,
          database.log (update_query (update_fields UNSET UNSET)) params db))
  ∧ update ids UNSET UNSET db =
      (Raise StoreError,
       database.log (update_query (update_fields UNSET UNSET))
         (update_params ids (update_fields UNSET UNSET)) db)
  ∧ map_requests (update ids UNSET UNSET db).2 = map_requests db.
Proof.
  split; [done|]. split; [intros; apply execute_empty_set|].
  rewrite update_raises. done.
Qed.

(** C7. The round trip on [db0] with [map_id] 30, [player_id] 5 and
    [active] true: [create] returns the new record, [fetch_one] by its id
    returns the same record, and [delete] by its id removes the row but
    raises [AttributeError] where the record was to be returned a third
    time; afterwards [fetch_one] finds no row. *)
Theorem roundtrip_delete_raises :
  ∃ db1 db2 db3 db4,
    create 30 5 true db0 =
      (Return (database.project READ_PARAMS (created 30 5 true db0)), db1)
    ∧ fetch_one (Some 4) None None None db1 =
        (Return (Some (database.project READ_PARAMS (created 30 5 true db0))),
         db2)
    ∧ delete 4 db2 = (Raise AttributeError, db3)
    ∧ map_requests db3 = [r1; r2; r3]
    ∧ fetch_one (Some 4) None None None db3 = (Return None, db4).
Proof.
  apply (roundtrip_raises 30 5 true db0).
  split; [done|]. unfold db0; simpl. repeat constructor.
Qed.

(** C8. For every id that no row has, [delete] returns [None] right after
    its initial read: the SELECT is the only statement it issues, no DELETE
    follows, and the table is left as it was. *)
Theorem delete_absent_id i db :
  (∀ r, r ∈ map_requests db → id r ≠ i) →
  delete i db =
    (Return None, database.log select_by_id {[ "id" := VInt i ]} db)
  ∧ map_requests (delete i db).2 = map_requests db
  ∧ issued (delete i db).2 =
      issued db ++ [(select_by_id, {[ "id" := VInt i ]})].
Proof.
  intros Habs. rewrite delete_spec, filter_none; [done|].
  by apply Forall_forall.
Qed.

Lemma delete_absent_id_witness :
  (∀ r, r ∈ map_requests db0 → id r ≠ 5)
  ∧ delete 5 db0 =
      (Return None, database.log select_by_id {[ "id" := VInt 5 ]} db0)
  ∧ map_requests (delete 5 db0).2 = map_requests db0
  ∧ issued (delete 5 db0).2 =
      issued db0 ++ [(select_by_id, {[ "id" := VInt 5 ]})].
Proof.
  assert (∀ r, r ∈ map_requests db0 → id r ≠ 5) as Habs.
  { intros r Hr. unfold db0 in Hr; simpl in Hr.
    repeat (apply elem_of_cons in Hr as [->|Hr]; [discriminate|]).
    by apply elem_of_nil in Hr. }
  split; [exact Habs|]. apply (delete_absent_id 5 db0 Habs).
Defined.

(** C9. [fetch_count] with its three filters absent is a legal call: it
    does not raise, and it returns the number of rows of the table. *)
Theorem fetch_count_all db :
  ∃ q params,
    fetch_count None None None db =
      (Return (VInt (Z.of_nat (length (map_requests db)))),
       database.log q params db).
Proof.
  destruct (fetch_count_spec None None None db) as (q & ps & Hc).
  exists q, ps. rewrite Hc, filter_all; [done|].
  by apply Forall_forall.
Qed.

(** C10. For every [X] and every table, [fetch_all] with [map_id] [X] and
    the other filters absent returns the rows whose [map_id] is [X], all of
    them and no others, whatever their [player_id] and [active], and leaves
    the table as it was; and leaving a filter out of any call never removes
    a row from its result. *)
Theorem fetch_all_by_map_id X db :
  (fetch_all (Some X) None None db).1 =
    Return (database.project READ_PARAMS <$>
              filter (λ r, map_id r = X) (map_requests db))
  ∧ map_requests (fetch_all (Some X) None None db).2 = map_requests db
  ∧ (∀ r, database.project READ_PARAMS r
            ∈ returned (fetch_all (Some X) None None db)
          ↔ r ∈ map_requests db ∧ map_id r = X)
  ∧ (∀ m p a,
       returned (fetch_all m p a db) ⊆ returned (fetch_all None p a db)
       ∧ returned (fetch_all m p a db) ⊆ returned (fetch_all m None a db)
       ∧ returned (fetch_all m p a db) ⊆ returned (fetch_all m p None db)).
Proof.
  assert (filter (λ r, agrees (Some X) (map_id r) ∧ agrees None (player_id r)
                       ∧ agrees None (Z.b2z (active r))) (map_requests db)
          = filter (λ r, map_id r = X) (map_requests db)) as Hfil.
  { apply list_filter_iff. intros r. simpl. tauto. }
  split; [|split; [|split]].
  - destruct (fetch_all_spec (Some X) None None db) as (q & ps & ->).
    cbn [fst]. by rewrite Hfil.
  - by destruct (fetch_all_spec (Some X) None None db) as (q & ps & ->).
  - intros r. rewrite returned_fetch_all, Hfil, list_elem_of_fmap. split.
    + intros (r' & ->%project_inj & Hr).
      apply list_elem_of_filter in Hr. tauto.
    + intros [Hr HX]. exists r. split; [done|].
      by apply list_elem_of_filter.
  - intros m p a. repeat split; apply fetch_all_omit; auto.
Qed.

(** * Further properties of the operations *)

(** ** The reads, by the rows that match *)

Lemma fetch_all_matching m p a db :
  ∃ q params,
    fetch_all m p a db =
      (Return (database.project READ_PARAMS <$> matching None m p a db),
       database.log q params db).
Proof.
  destruct (fetch_all_spec m p a db) as (q & ps & ->).
  exists q, ps. do 3 f_equal.
  apply list_filter_iff. intros r. simpl. tauto.
Qed.

Lemma fetch_count_matching m p a db :
  ∃ q params,
    fetch_count m p a db =
      (Return (VInt (Z.of_nat (length (matching None m p a db)))),
       database.log q params db).
Proof.
  destruct (fetch_count_spec m p a db) as (q & ps & ->).
  exists q, ps. do 5 f_equal.
  apply list_filter_iff. intros r. simpl. tauto.
Qed.

Lemma returned_matching m p a db :
  returned (fetch_all m p a db) =
    database.project READ_PARAMS <$> matching None m p a db.
Proof. by destruct (fetch_all_matching m p a db) as (q & ps & ->). Qed.

Lemma elem_of_matching i m p a db r :
  r ∈ matching i m p a db ↔
    r ∈ map_requests db ∧ agrees i (id r) ∧ agrees m (map_id r)
    ∧ agrees p (player_id r) ∧ agrees a (Z.b2z (active r)).
Proof. unfold matching. rewrite list_elem_of_filter. tauto. Qed.


(** X8. [fetch_all] with no filter returns every row of the table, in the
    order of the table. *)
Theorem fetch_all_everything db :
  ∃ q params,
    fetch_all None None None db =
      (Return (database.project READ_PARAMS <$> map_requests db),
       database.log q params db).
Proof.
  destruct (fetch_all_matching None None None db) as (q & ps & ->).
  exists q, ps. unfold matching. rewrite filter_all; [done|].
  apply Forall_forall. intros r _. simpl. tauto.
Qed.

(** X9. For the same filters, [fetch_count] returns the number of rows
    [fetch_all] returns; it never raises, and the count is at most the
    number of rows of the table. *)
Theorem fetch_count_length_of_fetch_all m p a db :
  (fetch_count m p a db).1 =
    Return (VInt (Z.of_nat (length (returned (fetch_all m p a db)))))
  ∧ (length (returned (fetch_all m p a db)) ≤ length (map_requests db))%nat.
Proof.
  rewrite returned_matching, length_fmap.
  destruct (fetch_count_matching m p a db) as (q & ps & ->).
  split; [done|]. apply length_filter.
Qed.

Lemma fetch_one_matching i m p a db :
  ¬ (i = None ∧ m = None ∧ p = None ∧ a = None) →
  ∃ q params,
    fetch_one i m p a db =
      (Return (head (database.project READ_PARAMS <$> matching i m p a db)),
       database.log q params db).
Proof. apply fetch_one_spec. Qed.

(** X6. With at least one of [map_id], [player_id] and [active] given,
    [fetch_one] without an id returns the first row [fetch_all] returns for
    the same filters, or [None] when [fetch_all] returns no row. *)
Theorem fetch_one_head_of_fetch_all m p a db :
  ¬ (m = None ∧ p = None ∧ a = None) →
  (fetch_one None m p a db).1 = Return (head (returned (fetch_all m p a db))).
Proof.
  intros Hsome.
  destruct (fetch_one_matching None m p a db) as (q & ps & ->); [tauto|].
  by rewrite returned_matching.
Qed.

Lemma fetch_one_head_of_fetch_all_witness :
  ¬ (Some 10 = None ∧ @None Z = None ∧ @None Z = None)
  ∧ (fetch_one None (Some 10) None None db0).1 =
      Return (head (returned (fetch_all (Some 10) None None db0))).
Proof.
  assert (¬ (Some 10 = None ∧ @None Z = None ∧ @None Z = None)) as H
    by (intros [? _]; discriminate).
  split; [exact H|].
  exact (fetch_one_head_of_fetch_all (Some 10) None None db0 H).
Defined.

(** X4. With at least one filter given, [fetch_one] does not raise: it
    returns the first row of the table that agrees with every filter given.
    It returns [None] exactly when no row agrees with them, and a row it
    returns is a row of the table that agrees with all of them. *)
Theorem fetch_one_first_match i m p a db :
  ¬ (i = None ∧ m = None ∧ p = None ∧ a = None) →
  (fetch_one i m p a db).1 =
    Return (database.project READ_PARAMS <$> head (matching i m p a db))
  ∧ ((fetch_one i m p a db).1 = Return None ↔
       ∀ r, r ∈ map_requests db →
            ¬ (agrees i (id r) ∧ agrees m (map_id r)
               ∧ agrees p (player_id r) ∧ agrees a (Z.b2z (active r))))
  ∧ (∀ d, (fetch_one i m p a db).1 = Return (Some d) →
          ∃ r, d = database.project READ_PARAMS r ∧ r ∈ map_requests db
               ∧ agrees i (id r) ∧ agrees m (map_id r)
               ∧ agrees p (player_id r) ∧ agrees a (Z.b2z (active r))).
Proof.
  intros Hsome.
  destruct (fetch_one_matching i m p a db Hsome) as (q & ps & ->).
  cbn [fst].
  destruct (matching i m p a db) as [|r0 l] eqn:Hmat; cbn [fmap list_fmap head option_fmap option_map].
  - split; [done|]. split.
    + split; [|done]. intros _ r Hr Hag.
      assert (r ∈ matching i m p a db) as Hin by (apply elem_of_matching; tauto).
      rewrite Hmat in Hin. by apply elem_of_nil in Hin.
    + intros d [=].
  - assert (r0 ∈ matching i m p a db) as Hin by (rewrite Hmat; left).
    apply elem_of_matching in Hin.
    split; [done|]. split.
    + split; [done|]. intros Hno. exfalso. apply (Hno r0); tauto.
    + intros d [= <-]. exists r0. tauto.
Qed.

Lemma fetch_one_first_match_witness :
  ¬ (@None Z = None ∧ Some 10 = None ∧ @None Z = None ∧ Some 1 = None)
  ∧ (fetch_one None (Some 10) None (Some 1) db0).1 =
      Return (database.project READ_PARAMS <$>
                head (matching None (Some 10) None (Some 1) db0)).
Proof.
  assert (¬ (@None Z = None ∧ Some 10 = None ∧ @None Z = None
             ∧ Some 1 = None)) as H by (intros (_ & ? & _); discriminate).
  split; [exact H|].
  exact (proj1 (fetch_one_first_match None (Some 10) None (Some 1) db0 H)).
Defined.

(** With unique ids the rows of a given id are at most the one row. *)
Lemma filter_unique_id rows r :
  NoDup (id <$> rows) → r ∈ rows →
  filter (λ r', id r' = id r) rows = [r].
Proof.
  induction rows as [|x rows IH]; intros Hnd Hr.
  - by apply elem_of_nil in Hr.
  - rewrite fmap_cons in Hnd. apply NoDup_cons in Hnd as [Hx Hnd].
    apply elem_of_cons in Hr as [->|Hr].
    + rewrite filter_cons_True by done. f_equal.
      apply filter_none, Forall_forall. intros r' Hr' Heq.
      apply Hx. rewrite <- Heq. apply list_elem_of_fmap. by exists r'.
    + rewrite filter_cons_False; [by apply IH|].
      intros Heq. apply Hx. rewrite Heq. apply list_elem_of_fmap. by exists r.
Qed.

(** X5. When no two rows share an id, [fetch_one] by the id of a row of
    the table returns that row. *)
Theorem fetch_one_by_unique_id r db :
  unique_ids db → r ∈ map_requests db →
  (fetch_one (Some (id r)) None None None db).1 =
    Return (Some (database.project READ_PARAMS r)).
Proof.
  intros Hu Hr.
  destruct (fetch_one_by_id (id r) db) as (q & ps & ->).
  by rewrite filter_unique_id.
Qed.

Lemma unique_ids_db0 : unique_ids db0.
Proof.
  unfold unique_ids, db0. simpl.
  repeat (apply NoDup_cons; split;
          [intros H; repeat (apply elem_of_cons in H as [H|H]; [discriminate|]);
           by apply elem_of_nil in H|]).
  apply NoDup_nil_2.
Defined.

Lemma fetch_one_by_unique_id_witness :
  unique_ids db0 ∧ r3 ∈ map_requests db0
  ∧ (fetch_one (Some (id r3)) None None None db0).1 =
      Return (Some (database.project READ_PARAMS r3)).
Proof.
  assert (r3 ∈ map_requests db0) as Hr by (unfold db0; simpl; repeat constructor).
  split; [exact unique_ids_db0|]. split; [exact Hr|].
  exact (fetch_one_by_unique_id r3 db0 unique_ids_db0 Hr).
Defined.

Lemma same_store_log q params db : same_store db (database.log q params db).
Proof. by unfold same_store. Qed.

(** X10. The three reads change nothing: after [fetch_one], [fetch_count]
    or [fetch_all], whatever the filters, the table, the auto-increment
    counter and the clock are as before. *)
Theorem reads_same_store i m p a db :
  same_store db (fetch_one i m p a db).2
  ∧ same_store db (fetch_count m p a db).2
  ∧ same_store db (fetch_all m p a db).2.
Proof.
  split; [|split].
  - destruct (decide (i = None ∧ m = None ∧ p = None ∧ a = None))
      as [(-> & -> & -> & ->)|Hsome].
    + done.
    + destruct (fetch_one_spec i m p a db Hsome) as (q & ps & ->).
      apply same_store_log.
  - destruct (fetch_count_spec m p a db) as (q & ps & ->).
    apply same_store_log.
  - destruct (fetch_all_spec m p a db) as (q & ps & ->).
    apply same_store_log.
Qed.

(** ** [delete], whatever the id *)

Lemma filter_complement {A} (P : A → Prop) `{!∀ x, Decision (P x)} (l : list A) :
  filter P l = [] → filter (λ x, ¬ P x) l = l.
Proof.
  intros Hnil. apply filter_all, Forall_forall. intros x Hx HP.
  by eapply (filter_nil_not_elem_of P).
Qed.

Lemma delete_table i db :
  map_requests (delete i db).2 = filter (λ r, id r ≠ i) (map_requests db)
  ∧ auto_increment (delete i db).2 = auto_increment db
  ∧ clock (delete i db).2 = clock db.
Proof.
  rewrite delete_spec.
  destruct (filter (λ r, id r = i) (map_requests db)) as [|r0 l] eqn:Hf.
  - simpl. by rewrite (filter_complement (λ r, id r = i)).
  - done.
Qed.


(** X12. A second [delete] of the same id finds nothing: it returns
    [None] after its SELECT and leaves the table as the first one left
    it. *)
Theorem delete_twice i db :
  delete i (delete i db).2 =
    (Return None,
     database.log select_by_id {[ "id" := VInt i ]} (delete i db).2)
  ∧ map_requests (delete i (delete i db).2).2 = map_requests (delete i db).2.
Proof.
  assert (filter (λ r, id r = i) (map_requests (delete i db).2) = []) as Hnil.
  { destruct (delete_table i db) as (-> & _).
    apply filter_none, Forall_forall. intros r Hr.
    apply list_elem_of_filter in Hr. tauto. }
  rewrite (delete_spec i (delete i db).2), Hnil. done.
Qed.

(** X13. When no two rows share an id, [delete] by the id of a row of the
    table removes that row and no other: the table is one row shorter and
    holds the other rows. *)
Theorem delete_unique_removes_one r db :
  unique_ids db → r ∈ map_requests db →
  ¬ (r ∈ map_requests (delete (id r) db).2)
  ∧ (∀ r', r' ∈ map_requests (delete (id r) db).2 ↔
           r' ∈ map_requests db ∧ r' ≠ r)
  ∧ (length (map_requests (delete (id r) db).2) + 1
     = length (map_requests db))%nat.
Proof.
  intros Hu Hr.
  destruct (delete_table (id r) db) as (Ht & _). rewrite Ht.
  assert (∀ r', r' ∈ map_requests db → id r' = id r → r' = r) as Hinj.
  { intros r' Hr' Heq.
    assert (r' ∈ filter (λ x, id x = id r) (map_requests db)) as Hin
      by (by apply list_elem_of_filter).
    rewrite filter_unique_id in Hin by done.
    by apply list_elem_of_singleton in Hin. }
  split; [|split].
  - rewrite list_elem_of_filter. tauto.
  - intros r'. rewrite list_elem_of_filter. split.
    + intros [Hne Hr']. split; [done|]. by intros ->.
    + intros [Hr' Hne]. split; [|done]. intros Heq. by apply Hne, Hinj.
  - pose proof (filter_unique_id _ r Hu Hr) as Hone.
    clear Ht Hinj Hu Hr. revert Hone.
    generalize (map_requests db). intros rows.
    assert (∀ rows : list MapRequest,
      (length (filter (λ x, id x ≠ id r) rows)
       + length (filter (λ x, id x = id r) rows) = length rows)%nat) as Hsplit.
    { induction rows0 as [|x rows0 IH]; [done|].
      destruct (decide (id x = id r)).
      - rewrite filter_cons_False, filter_cons_True by tauto. simpl. lia.
      - rewrite filter_cons_True, filter_cons_False by done. simpl. lia. }
    intros Hone. rewrite <- (Hsplit rows), Hone. done.
Qed.

Lemma delete_unique_removes_one_witness :
  unique_ids db0 ∧ r2 ∈ map_requests db0
  ∧ ¬ (r2 ∈ map_requests (delete (id r2) db0).2)
  ∧ (length (map_requests (delete (id r2) db0).2) + 1
     = length (map_requests db0))%nat.
Proof.
  assert (r2 ∈ map_requests db0) as Hr by (unfold db0; simpl; repeat constructor).
  pose proof (delete_unique_removes_one r2 db0 unique_ids_db0 Hr) as (H1 & _ & H3).
  split; [exact unique_ids_db0|]. split; [exact Hr|]. split; [exact H1|exact H3].
Defined.

(** ** [create] *)

(** X1. On a database with fresh ids, [create] issues its INSERT and then
    its SELECT by the new id, appends one row to the table and returns it:
    its [map_id], [player_id] and [active] are the arguments, its
    [datetime] is the store's time, and its [id] is the auto-increment
    value, which no row had before. *)
Theorem create_returns_inputs m p a db :
  fresh_ids db →
  create m p a db =
    (Return (database.project READ_PARAMS (created m p a db)),
     {| map_requests := map_requests db ++ [created m p a db];
        auto_increment := auto_increment db + 1;
        clock := clock db;
        issued := issued db ++
                  [(insert_request, create_params m p a);
                   (select_by_id, {[ "id" := VInt (auto_increment db) ]})] |})
  ∧ database.project READ_PARAMS (created m p a db) !! "map_id"
      = Some (VInt m)
  ∧ database.project READ_PARAMS (created m p a db) !! "player_id"
      = Some (VInt p)
  ∧ database.project READ_PARAMS (created m p a db) !! "active"
      = Some (VInt (Z.b2z a))
  ∧ database.project READ_PARAMS (created m p a db) !! "id"
      = Some (VInt (auto_increment db))
  ∧ (∀ r, r ∈ map_requests db → id r ≠ auto_increment db).
Proof.
  intros [Hpos Hlt].
  assert (∀ r, r ∈ map_requests db → id r ≠ auto_increment db) as Hnew.
  { intros r Hr. apply (proj1 (Forall_forall _ _) Hlt) in Hr. lia. }
  split; [|by repeat split].
  unfold create. io_unfold.
  unfold database.execute at 1. io_unfold.
  unfold database.submit at 1.
  match goal with
  | |- context [database.well_formed ?q && database.bound ?q ?ps] =>
      replace (database.well_formed q && database.bound q ps) with true by done
  end.
  unfold database.run.
  match goal with
  | |- context [forallb ?f database.required] =>
      replace (forallb f database.required) with true by done
  end.
  cbn [database.log clock auto_increment map_requests issued].
  match goal with
  | |- context [database.assign_all ?ps ?now ?vs ?b] =>
      replace (database.assign_all ps now vs b)
        with (Some (created m p a db)) by (by destruct a)
  end.
  cbn [created id]. rewrite Z.max_id.
  rewrite bool_decide_eq_false_2 by (simpl; lia).
  rewrite fetch_one_select by done.
  cbn [database.log clock auto_increment map_requests issued].
  rewrite (list_filter_iff _ (λ r, id r = auto_increment db))
    by (intros; apply selected_by_id).
  rewrite filter_app.
  rewrite (filter_none _ (map_requests db)) by (by apply Forall_forall).
  rewrite app_nil_l, filter_cons_True by done.
  unfold database.log.
  cbn [fmap list_fmap head clock auto_increment map_requests issued].
  rewrite <- app_assoc. reflexivity.
Qed.

Lemma fresh_ids_db0 : fresh_ids db0.
Proof. split; [done|]. unfold db0; simpl. repeat constructor. Defined.

Lemma create_returns_inputs_witness :
  fresh_ids db0
  ∧ database.project READ_PARAMS (created 30 5 true db0) !! "map_id"
      = Some (VInt 30).
Proof.
  split; [exact fresh_ids_db0|].
  exact (proj1 (proj2 (create_returns_inputs 30 5 true db0 fresh_ids_db0))).
Defined.

(** ** Ids stay fresh and unique *)

Lemma fresh_ids_same_store db db' :
  same_store db db' → fresh_ids db → fresh_ids db'.
Proof. intros (Ht & Ha & _) [Hpos Hlt]. unfold fresh_ids. by rewrite Ht, Ha. Qed.

Lemma unique_ids_same_store db db' :
  same_store db db' → unique_ids db → unique_ids db'.
Proof. intros (Ht & _) Hu. unfold unique_ids. by rewrite Ht. Qed.

Lemma same_store_update ids p a db : same_store db (update ids p a db).2.
Proof. rewrite update_raises. apply same_store_log. Qed.

(** X15. Every operation of the repository keeps the ids in order: if the
    auto-increment counter is above every id in use and no two rows share
    an id, the same holds after [create], [fetch_one], [fetch_count],
    [fetch_all], [update] and [delete]. *)
Theorem operations_keep_ids db :
  fresh_ids db → unique_ids db →
  (∀ m p a, fresh_ids (create m p a db).2 ∧ unique_ids (create m p a db).2)
  ∧ (∀ i m p a,
       fresh_ids (fetch_one i m p a db).2 ∧ unique_ids (fetch_one i m p a db).2)
  ∧ (∀ m p a,
       fresh_ids (fetch_count m p a db).2 ∧ unique_ids (fetch_count m p a db).2)
  ∧ (∀ m p a,
       fresh_ids (fetch_all m p a db).2 ∧ unique_ids (fetch_all m p a db).2)
  ∧ (∀ ids p a,
       fresh_ids (update ids p a db).2 ∧ unique_ids (update ids p a db).2)
  ∧ (∀ i, fresh_ids (delete i db).2 ∧ unique_ids (delete i db).2).
Proof.
  intros Hf Hu. split; [|split; [|split; [|split; [|split]]]].
  - intros m p a.
    destruct (create_returns_inputs m p a db Hf) as (-> & _ & _ & _ & _ & Hnew).
    destruct Hf as [Hpos Hlt]. cbn [snd]. split.
    + split; cbn [auto_increment map_requests]; [lia|].
      apply Forall_app. split.
      * eapply Forall_impl; [done|]. simpl. lia.
      * apply Forall_singleton. simpl. lia.
    + unfold unique_ids. cbn [map_requests]. rewrite fmap_app.
      apply NoDup_app. split; [done|]. split; [|apply NoDup_singleton].
      intros x (r & -> & Hr)%list_elem_of_fmap Hx.
      apply list_elem_of_singleton in Hx. by apply (Hnew r).
  - intros i m p a. destruct (reads_same_store i m p a db) as (H & _ & _).
    eauto using fresh_ids_same_store, unique_ids_same_store.
  - intros m p a. destruct (reads_same_store None m p a db) as (_ & H & _).
    eauto using fresh_ids_same_store, unique_ids_same_store.
  - intros m p a. destruct (reads_same_store None m p a db) as (_ & _ & H).
    eauto using fresh_ids_same_store, unique_ids_same_store.
  - intros ids p a. pose proof (same_store_update ids p a db).
    eauto using fresh_ids_same_store, unique_ids_same_store.
  - intros i. destruct (delete_table i db) as (Ht & Ha & _).
    destruct Hf as [Hpos Hlt]. split.
    + split; [by rewrite Ha|]. rewrite Ht, Ha.
      apply Forall_forall. intros r Hr. apply list_elem_of_filter in Hr as [_ Hr].
      by apply (proj1 (Forall_forall _ _) Hlt).
    + unfold unique_ids. rewrite Ht.
      eapply sublist_NoDup; [exact Hu|].
      apply fmap_sublist, sublist_filter.
Qed.

Lemma operations_keep_ids_witness :
  fresh_ids db0 ∧ unique_ids db0
  ∧ fresh_ids (create 30 5 true db0).2 ∧ unique_ids (create 30 5 true db0).2.
Proof.
  split; [exact fresh_ids_db0|]. split; [exact unique_ids_db0|].
  exact (proj1 (operations_keep_ids db0 fresh_ids_db0 unique_ids_db0) 30 5 true).
Defined.

(** X2. Two calls to [create] in a row, from fresh ids, both return
    their record; the second id is the first plus one, and the table ends
    with the two new rows in the order of the calls. *)
Theorem create_twice_increasing_ids m p a m' p' a' db :
  fresh_ids db →
  (create m p a db).1 =
    Return (database.project READ_PARAMS (created m p a db))
  ∧ (create m' p' a' (create m p a db).2).1 =
      Return (database.project READ_PARAMS
                (created m' p' a' (create m p a db).2))
  ∧ id (created m' p' a' (create m p a db).2) = id (created m p a db) + 1
  ∧ map_requests (create m' p' a' (create m p a db).2).2 =
      map_requests db ++ [created m p a db;
                          created m' p' a' (create m p a db).2].
Proof.
  intros Hf.
  assert (fresh_ids (create m p a db).2) as Hf1.
  { destruct Hf as [Hpos Hlt].
    destruct (create_returns_inputs m p a db (conj Hpos Hlt)) as (-> & _).
    split; cbn [snd auto_increment map_requests]; [lia|].
    apply Forall_app. split.
    - eapply Forall_impl; [done|]. simpl. lia.
    - apply Forall_singleton. simpl. lia. }
  destruct (create_returns_inputs m' p' a' _ Hf1) as (-> & _).
  destruct (create_returns_inputs m p a db Hf) as (-> & _).
  cbn [fst snd map_requests created id auto_increment].
  by rewrite <- app_assoc.
Qed.

Lemma create_twice_increasing_ids_witness :
  fresh_ids db0
  ∧ id (created 31 6 false (create 30 5 true db0).2)
      = id (created 30 5 true db0) + 1.
Proof.
  split; [exact fresh_ids_db0|].
  exact (proj1 (proj2 (proj2
    (create_twice_increasing_ids 30 5 true 31 6 false db0 fresh_ids_db0)))).
Defined.

(** X3. After [create], from fresh ids, [fetch_count] is one more than
    before for filters the new row agrees with, and as before for the
    others. *)
Theorem create_then_fetch_count m p a m' p' a' db :
  fresh_ids db →
  ∃ n,
    (fetch_count m' p' a' db).1 = Return (VInt n)
    ∧ (fetch_count m' p' a' (create m p a db).2).1 =
        Return (VInt (n + (if bool_decide (agrees m' m ∧ agrees p' p
                                            ∧ agrees a' (Z.b2z a))
                           then 1 else 0))).
Proof.
  intros Hf.
  destruct (fetch_count_matching m' p' a' db) as (q & ps & ->).
  destruct (fetch_count_matching m' p' a' (create m p a db).2) as (q' & ps' & ->).
  eexists. split; [done|]. cbn [fst]. do 2 f_equal.
  destruct (create_returns_inputs m p a db Hf) as (-> & _).
  unfold matching. cbn [snd map_requests]. rewrite filter_app, length_app.
  case_bool_decide as Hag.
  - rewrite (filter_cons_True _ (created m p a db)) by (simpl; tauto).
    simpl. lia.
  - rewrite (filter_cons_False _ (created m p a db)) by (simpl; tauto).
    simpl. lia.
Qed.

Lemma create_then_fetch_count_witness :
  fresh_ids db0
  ∧ ∃ n,
      (fetch_count (Some 30) None None db0).1 = Return (VInt n)
      ∧ (fetch_count (Some 30) None None (create 30 5 true db0).2).1 =
          Return (VInt (n + (if bool_decide (agrees (Some 30) 30 ∧ agrees None 5
                                             ∧ agrees None (Z.b2z true))
                             then 1 else 0))).
Proof.
  split; [exact fresh_ids_db0|].
  exact (create_then_fetch_count 30 5 true (Some 30) None None db0 fresh_ids_db0).
Defined.

(** ** The fields of [update] *)

(** X14. [update] names a field in the SET list of its statement, and
    binds its value under the field's name, exactly when the field was
    given; of the placeholders of the statement, [:map_ids] is the only one
    without a value. *)
Theorem update_fields_given ids p a :
  (c_player_id ∈ assigned_columns (update_query (update_fields p a))
     ↔ p ≠ UNSET)
  ∧ (c_active ∈ assigned_columns (update_query (update_fields p a))
     ↔ a ≠ UNSET)
  ∧ update_params ids (update_fields p a) !! "player_id" =
      match p with Given x => Some (VInt x) | UNSET => None end
  ∧ update_params ids (update_fields p a) !! "active" =
      match a with Given b => Some (VBool b) | UNSET => None end
  ∧ (∀ n, n ∈ placeholders (update_query (update_fields p a)) →
          (update_params ids (update_fields p a) !! n = None ↔ n = "map_ids")).
Proof.
  split; [|split; [|split; [|split]]].
  - rewrite update_query_columns. split.
    + intros H. destruct p; [|discriminate]. destruct a; simpl in H;
        repeat (apply elem_of_cons in H as [H|H]; [discriminate|]);
        by apply elem_of_nil in H.
    + intros H. destruct p; [done|]. left.
  - rewrite update_query_columns. split.
    + intros H. destruct a; [|discriminate]. destruct p; simpl in H;
        repeat (apply elem_of_cons in H as [H|H]; [discriminate|]);
        by apply elem_of_nil in H.
    + intros H. destruct a; [done|]. destruct p; simpl; repeat constructor.
  - by destruct p, a.
  - by destruct p, a.
  - intros n Hn.
    destruct p, a; cbn in Hn;
      repeat (apply elem_of_cons in Hn as [->|Hn]; [by split|]);
      by apply elem_of_nil in Hn.
Qed.
